(** * Newton's method and golden-section search (class [opt_tech])

    A shallow embedding of [newton_4818.py].

    Newton's method.  sympy computes exactly on an int or Rational guess,
    and the method is modelled over the rationals [Q].  Values that come
    out of a sympy expression live in [sval], sympy's numbers extended with
    [zoo], [nan] and the signed infinities, because sympy's division does
    not raise on a zero divisor.  The threshold of the verdict is the
    Python float [0.01], taken as the exact value of that double.

    Golden section.  The bounds are Python numbers and [.618] is a float,
    so the method computes in binary64.  [Machine] has the method over the
    operations of the interpreter, whatever they return ([Runtime]), with
    binary64 as one instance; its theorems hold of every instance.  The
    definitions outside [Machine] ([place], [gs_loop], [golden_section])
    read the same operations over [Q], without rounding and with every
    row formatted.

    Output.  A printed line is modelled by the tuple of values handed to
    [str.format]; the text itself is not modelled.  A fixed-point format
    spec applied to a non-finite sympy number raises [TypeError]; the
    formatting of a finite sympy number is taken to succeed. *)

From Stdlib Require Import QArith Qabs Qround Qpower ZArith List Lia Lqa Bool.
From Stdlib Require Import Floats.PrimFloat.
Import ListNotations.

Local Open Scope Q_scope.

(** ** The expression interface (sympy)

    [diff] is [sp.diff], [subs e v] is [e.subs(self.x, v)] at a finite
    point, for an expression that is finite-valued there. *)

Class SymExpr (expr : Type) : Type := {
  diff : expr -> expr;
  subs : expr -> Q -> Q
}.

(** Polynomials in [x], coefficients from the constant term upwards: the
    instance used for the concrete runs. *)

Module Poly.

Definition poly : Type := list Q.

Fixpoint eval (p : poly) (v : Q) : Q :=
  match p with
  | [] => 0
  | c :: p' => c + v * eval p' v
  end.

Fixpoint deriv_from (k : positive) (p : poly) : poly :=
  match p with
  | [] => []
  | c :: p' => (inject_Z (Zpos k) * c) :: deriv_from (Pos.succ k) p'
  end.

Definition deriv (p : poly) : poly :=
  match p with
  | [] => []
  | _ :: p' => deriv_from 1 p'
  end.

End Poly.

#[export] Instance poly_SymExpr : SymExpr Poly.poly := {
  diff := Poly.deriv;
  subs := Poly.eval
}.

(** ** sympy numbers *)

Inductive sval : Type :=
| Fin (q : Q)      (* a finite number *)
| Zoo              (* complex infinity, [1/0] *)
| NaN              (* [0/0] *)
| Oo               (* [+oo], e.g. [abs(zoo)] *)
| NegOo.           (* [-oo] *)

Definition ssub (a b : sval) : sval :=
  match a, b with
  | NaN, _ | _, NaN => NaN
  | Fin x, Fin y => Fin (x - y)
  | Fin _, Zoo => Zoo
  | Fin _, Oo => NegOo
  | Fin _, NegOo => Oo
  | Zoo, Fin _ => Zoo
  | Zoo, _ => NaN
  | Oo, Fin _ | Oo, NegOo => Oo
  | Oo, _ => NaN
  | NegOo, Fin _ | NegOo, Oo => NegOo
  | NegOo, _ => NaN
  end.

Definition sdiv (a b : sval) : sval :=
  match a, b with
  | NaN, _ | _, NaN => NaN
  | Fin x, Fin y =>
      if Qeq_bool y 0 then (if Qeq_bool x 0 then NaN else Zoo)
      else Fin (x / y)
  | Fin _, _ => Fin 0
  | Zoo, Fin _ => Zoo
  | Zoo, _ => NaN
  | Oo, Fin y =>
      if Qeq_bool y 0 then Zoo else if Qle_bool 0 y then Oo else NegOo
  | Oo, _ => NaN
  | NegOo, Fin y =>
      if Qeq_bool y 0 then Zoo else if Qle_bool 0 y then NegOo else Oo
  | NegOo, _ => NaN
  end.

Definition sabs (a : sval) : sval :=
  match a with
  | Fin x => Fin (Qabs x)
  | NaN => NaN
  | Zoo | Oo | NegOo => Oo
  end.

(** Python exceptions. *)
Inductive exn : Type :=
| ZeroDivisionError
| TypeError
| IndexError
| OverflowError
| ValueError.

(** ["{:.{prec}f}".format(v)] on a sympy number: the value that is
    rendered, or [TypeError] for a non-finite one. *)
Definition fmt (v : sval) : exn + Q :=
  match v with
  | Fin q => inr q
  | _ => inl TypeError
  end.

(** ** The class *)

Record opt_tech (expr : Type) : Type := Build_opt_tech {
  fx : expr;
  itr_no : Z;
  prec : nat
}.
Arguments Build_opt_tech {expr} _ _ _.
Arguments fx {expr} _.
Arguments itr_no {expr} _.
Arguments prec {expr} _.

(** [range(n)] has [Z.to_nat n] elements (none when [n <= 0]). *)
Definition range_len (n : Z) : nat := Z.to_nat n.

(** ** Newton's method *)

(** The line printed by one iteration: [i+1], [xi_new], [relative_error]. *)
Record iter_line : Type := Build_iter_line {
  line_no : nat;
  approx : Q;
  rel_err : Q
}.

(** The verdict lines after the loop. *)
Inductive verdict : Type :=
| Accepted (x f_dash fmax : Q)
| Rejected (x : Q).

(** What a call leaves behind: the lines printed and, if it returned, the
    verdict; otherwise the number of iterations completed when it raised
    (the 0-based index of the iteration that raised, or the iteration count
    when the verdict line raised). *)
Inductive outcome : Type :=
| Finished (trace : list iter_line) (v : verdict)
| Raised (trace : list iter_line) (i : nat) (e : exn).

Inductive loop_result : Type :=
| LoopDone (trace : list iter_line) (xi_old : Q)
| LoopRaised (trace : list iter_line) (i : nat) (e : exn).

Definition printed (l : iter_line) (r : loop_result) : loop_result :=
  match r with
  | LoopDone t x => LoopDone (l :: t) x
  | LoopRaised t i e => LoopRaised (l :: t) i e
  end.

Section Newton.

Context {expr : Type} `{SymExpr expr}.

(** [xi_old - df.subs(x, xi_old) / ddf.subs(x, xi_old)] *)
Definition improved (df ddf : expr) (xi_old : Q) : sval :=
  ssub (Fin xi_old) (sdiv (Fin (subs df xi_old)) (Fin (subs ddf xi_old))).

(** [abs(xi_new - xi_old) / abs(xi_new)] *)
Definition relative_error (xi_new : sval) (xi_old : Q) : sval :=
  sdiv (sabs (ssub xi_new (Fin xi_old))) (sabs xi_new).

(** The [for] loop: [n] iterations left, [i] the loop index. *)
Fixpoint newton_loop (df ddf : expr) (n i : nat) (xi_old : Q) : loop_result :=
  match n with
  | O => LoopDone [] xi_old
  | S n' =>
      let xi_new := improved df ddf xi_old in
      let re := relative_error xi_new xi_old in
      match fmt xi_new, fmt re with
      | inr a, inr r =>
          printed (Build_iter_line (S i) a r) (newton_loop df ddf n' (S i) a)
      | inl e, _ => LoopRaised [] i e
      | _, inl e => LoopRaised [] i e
      end
  end.

(** The Python float [0.01] of line 83, as the exact value of that double:
    [5764607523034235 / 2^59], a little above [1/100].  sympy compares an
    exact number with it without rounding. *)
Definition threshold : Q := 5764607523034235 # 576460752303423488.

Definition acceptable (f_dash : Q) : bool := Qle_bool (Qabs f_dash) threshold.

(** The least magnitude at which converting a Python int to a float
    overflows: [2^1024 - 2^970]. *)
Definition float_overflow : Q := inject_Z (2 ^ 1024 - 2 ^ 970).

(** ["{:.{prec}f}".format(v)] on a Python number (an int, or a float, which
    is always below the bound): an int too large for a float raises
    [OverflowError]. *)
Definition fmt_py (v : Q) : exn + Q :=
  if Qle_bool float_overflow (Qabs v) then inl OverflowError else inr v.

(** Formatting [xi_old] in the verdict line: it is still the Python number
    [xo] when the loop made no pass, a finite sympy number otherwise. *)
Definition fmt_old (passes : nat) (xi_old : Q) : exn + Q :=
  match passes with
  | O => fmt_py xi_old
  | S _ => inr xi_old
  end.

Definition newtons_method (self : opt_tech expr) (xo : Q) : outcome :=
  let df := diff (fx self) in
  let ddf := diff df in
  match newton_loop df ddf (range_len (itr_no self)) 0 xo with
  | LoopRaised t i e => Raised t i e
  | LoopDone t xi_old =>
      let f_dash := subs df xi_old in
      let accepted := acceptable f_dash in
      match fmt_old (range_len (itr_no self)) xi_old with
      | inl e => Raised t (range_len (itr_no self)) e
      | inr _ =>
          if accepted
          then Finished t (Accepted xi_old f_dash (subs (fx self) xi_old))
          else Finished t (Rejected xi_old)
      end
  end.

(** The update on finite numbers. *)
Definition newton_next (df ddf : expr) (x : Q) : Q :=
  x - subs df x / subs ddf x.

(** The approximation after [k] iterations. *)
Fixpoint iterate (df ddf : expr) (k : nat) (x : Q) : Q :=
  match k with
  | O => x
  | S k' => newton_next df ddf (iterate df ddf k' x)
  end.

(** The iteration at [x] goes through: the second derivative and the new
    approximation are both non-zero. *)
Definition step_ok (df ddf : expr) (x : Q) : bool :=
  negb (Qeq_bool (subs ddf x) 0) && negb (Qeq_bool (newton_next df ddf x) 0).

(** The line of an iteration at [x] that goes through. *)
Definition line_at (df ddf : expr) (i : nat) (x : Q) : iter_line :=
  let a := newton_next df ddf x in
  Build_iter_line (S i) a (Qabs (a - x) / Qabs a).

(** The lines of [n] iterations that all go through. *)
Fixpoint newton_lines (df ddf : expr) (n i : nat) (x : Q) : list iter_line :=
  match n with
  | O => []
  | S n' =>
      line_at df ddf i x :: newton_lines df ddf n' (S i) (newton_next df ddf x)
  end.

(** [all_ok n x]: the first [n] iterations from [x] all go through. *)
Fixpoint all_ok (df ddf : expr) (n : nat) (x : Q) : bool :=
  match n with
  | O => true
  | S n' => step_ok df ddf x && all_ok df ddf n' (newton_next df ddf x)
  end.

End Newton.

(** ** Golden-section search *)

(** The factor [.618]. *)
Definition phi : Q := 618 # 1000.

(** Python's [round(v, ndigits)]: to the nearest multiple of
    [10^-ndigits], a tie to the even one. *)
Definition round_half_even (v : Q) : Z :=
  let n := Qfloor v in
  match Qcompare (v - inject_Z n) (1 # 2) with
  | Lt => n
  | Gt => (n + 1)%Z
  | Eq => if Z.even n then n else (n + 1)%Z
  end.

Definition pow10 (p : nat) : Q := inject_Z (10 ^ Z.of_nat p).

Definition round_ndigits (v : Q) (p : nat) : Q :=
  inject_Z (round_half_even (v * pow10 p)) / pow10 p.

(** The four locals [xl], [x2], [x1], [xu]. *)
Record bracket : Type := Build_bracket {
  xl : Q;
  x2 : Q;
  x1 : Q;
  xu : Q
}.

(** One table row, the list [data]. *)
Record row : Type := Build_row {
  row_no : nat;
  row_xl : Q;
  row_x2 : Q;
  row_x1 : Q;
  row_xu : Q;
  row_fx2 : Q;
  row_fx1 : Q;
  row_len : Q;
  row_err : Q
}.

Inductive gs_result : Type :=
| GsDone (table : list row) (final : Q * Q)
| GsRaised (table : list row) (i : nat) (e : exn).

Definition gs_printed (r : row) (res : gs_result) : gs_result :=
  match res with
  | GsDone t b => GsDone (r :: t) b
  | GsRaised t i e => GsRaised (r :: t) i e
  end.

(** [x2 = xu - .618*(xu-xl)], [x1 = xl + .618*(xu-xl)] *)
Definition place (lo hi : Q) : bracket :=
  {| xl := lo;
     x2 := hi - phi * (hi - lo);
     x1 := lo + phi * (hi - lo);
     xu := hi |}.

(** [fx1 > fx2] *)
Definition gt_bool (a b : Q) : bool := negb (Qle_bool a b).

(** [if fx1 > fx2: xl, x2 = x2, x1  else: xu, x1 = x1, x2] *)
Definition eliminate (fx1 fx2 : Q) (b : bracket) : bracket :=
  if gt_bool fx1 fx2
  then {| xl := x2 b; x2 := x1 b; x1 := x1 b; xu := xu b |}
  else {| xl := xl b; x2 := x2 b; x1 := x2 b; xu := x1 b |}.

Section Golden.

Context {expr : Type} `{SymExpr expr}.

(** [round((xu-xl)*.618**i, prec)] *)
Definition width_formula (self : opt_tech expr) (lo hi : Q) (i : nat) : Q :=
  round_ndigits ((hi - lo) * phi ^ Z.of_nat i) (prec self).

(** [round((xu-xl)*.618**(i+2), prec)] *)
Definition error_formula (self : opt_tech expr) (lo hi : Q) (i : nat) : Q :=
  round_ndigits ((hi - lo) * phi ^ Z.of_nat (i + 2)) (prec self).

(** The list [length] *)
Definition length_list (self : opt_tech expr) (lo hi : Q) : list Q :=
  map (width_formula self lo hi) (seq 0 (range_len (itr_no self))).

(** The list [error_bound] *)
Definition error_bound_list (self : opt_tech expr) (lo hi : Q) : list Q :=
  map (error_formula self lo hi) (seq 0 (range_len (itr_no self))).

(** One pass through the loop body, on the bounds alone: the bounds the
    next pass starts from. *)
Definition gs_step (f : expr) (p : Q * Q) : Q * Q :=
  let b := place (fst p) (snd p) in
  let b' := eliminate (subs f (x1 b)) (subs f (x2 b)) b in
  (xl b', xu b').

(** The [for] loop: [n] iterations left, [i] the loop index.  A list index
    out of range raises [IndexError]. *)
Fixpoint gs_loop (f : expr) (length error_bound : list Q) (n i : nat)
    (lo hi : Q) : gs_result :=
  match n with
  | O => GsDone [] (lo, hi)
  | S n' =>
      let b := place lo hi in
      let fx2 := subs f (x2 b) in
      let fx1 := subs f (x1 b) in
      match nth_error length i, nth_error error_bound i with
      | Some len, Some err =>
          let data := Build_row (S i) lo (x2 b) (x1 b) hi fx2 fx1 len err in
          let b' := eliminate fx1 fx2 b in
          gs_printed data
            (gs_loop f length error_bound n' (S i) (xl b') (xu b'))
      | _, _ => GsRaised [] i IndexError
      end
  end.

Definition golden_section (self : opt_tech expr) (lo hi : Q) : gs_result :=
  gs_loop (fx self) (length_list self lo hi) (error_bound_list self lo hi)
          (range_len (itr_no self)) 0 lo hi.

(** The bounds after [k] passes. *)
Fixpoint gs_bounds (f : expr) (k : nat) (p : Q * Q) : Q * Q :=
  match k with
  | O => p
  | S k' => gs_bounds f k' (gs_step f p)
  end.

(** The row printed by pass [i] from the bounds [p]. *)
Definition row_at (f : expr) (lenf errf : nat -> Q) (i : nat) (p : Q * Q)
    : row :=
  let b := place (fst p) (snd p) in
  Build_row (S i) (fst p) (x2 b) (x1 b) (snd p)
            (subs f (x2 b)) (subs f (x1 b)) (lenf i) (errf i).

(** The rows of [n] passes. *)
Fixpoint gs_rows (f : expr) (lenf errf : nat -> Q) (n i : nat) (p : Q * Q)
    : list row :=
  match n with
  | O => []
  | S n' => row_at f lenf errf i p :: gs_rows f lenf errf n' (S i) (gs_step f p)
  end.

End Golden.

(** Objectives of the concrete runs: [x^3 + x], [x^2], [4x - x^2],
    [6x - x^2]. *)
Definition cubic : Poly.poly := [0; 1; 0; 1].
Definition square : Poly.poly := [0; 0; 1].
Definition quad : Poly.poly := [0; 4; -1].
Definition hill : Poly.poly := [0; 6; -1].

(** [c x] with [c = 1/100 + 10^-21], between [1/100] and the double
    [0.01]. *)
Definition slope : Poly.poly :=
  [0; 10000000000000000001 # 1000000000000000000000].

(** ** Reading what a call leaves behind *)

(** The iteration lines a call of Newton's method printed. *)
Definition trace_of (o : outcome) : list iter_line :=
  match o with
  | Finished t _ => t
  | Raised t _ _ => t
  end.

(** The point the verdict lines are about. *)
Definition verdict_point (v : verdict) : Q :=
  match v with
  | Accepted x _ _ => x
  | Rejected x => x
  end.

(** The table rows a call of the golden section printed. *)
Definition table_of (r : gs_result) : list row :=
  match r with
  | GsDone t _ => t
  | GsRaised t _ _ => t
  end.

(** ** Golden-section search on the interpreter's own arithmetic

    The search of [golden_section] once more, with nothing assumed about
    the numbers: the operators of the bounds ([-], [+], [*], [**],
    [round]), the evaluation and comparison of the objective, and the
    formatting of the header and of a row are the operations of a
    [Runtime], each of which returns a value or raises.  For Python floats
    the bounds are binary64 numbers ([binary64_hill]); read over the
    rationals the operations are exact ([exact]). *)

Module Machine.

(** A value, or the exception raised. *)
Definition result (A : Type) : Type := (exn + A)%type.

Definition ret {A : Type} (a : A) : result A := inr a.

Definition bind {A B : Type} (m : result A) (k : A -> result B) : result B :=
  match m with
  | inl e => inl e
  | inr a => k a
  end.

Declare Scope result_scope.
Delimit Scope result_scope with result.
Notation "x <- m ;; k" := (bind m (fun x => k))
  (at level 61, m at next level, right associativity) : result_scope.

(** The list [data] of one row. *)
Record row (num fval : Type) : Type := Build_row {
  no : nat;
  r_xl : num;
  r_x2 : num;
  r_x1 : num;
  r_xu : num;
  r_fx2 : fval;
  r_fx1 : fval;
  r_len : num;
  r_err : num
}.
Arguments Build_row {num fval} _ _ _ _ _ _ _ _ _.
Arguments no {num fval} _.
Arguments r_xl {num fval} _.
Arguments r_x2 {num fval} _.
Arguments r_x1 {num fval} _.
Arguments r_xu {num fval} _.
Arguments r_fx2 {num fval} _.
Arguments r_fx1 {num fval} _.
Arguments r_len {num fval} _.
Arguments r_err {num fval} _.

(** What the loop body works with: the numbers of the bounds, the values
    of the objective, and how a row is formatted. *)
Class Runtime (num fval : Type) : Type := {
  py_sub : num -> num -> result num;          (* [a - b] *)
  py_add : num -> num -> result num;          (* [a + b] *)
  py_mul : num -> num -> result num;          (* [a * b] *)
  c618 : num;                                 (* [.618] *)
  py_lt : num -> num -> Prop;                 (* [a < b] *)
  sym_subs : num -> result fval;              (* [self.fx.subs(self.x, v)] *)
  sym_gt : fval -> fval -> result bool;       (* [a > b] on sympy values *)
  fmt_row : nat -> row num fval -> result unit
                                    (* [str.format] of [data] at [prec] *)
}.

(** What the lines before the loop work with. *)
Class Tables (num : Type) : Type := {
  py_pow : num -> nat -> result num;          (* [a ** i] *)
  py_round : num -> nat -> result num;        (* [round(a, prec)] *)
  fmt_header : nat -> result unit             (* [str.format] of the header *)
}.

(** The four locals [xl], [x2], [x1], [xu]. *)
Record locals (num : Type) : Type := Build_locals {
  xl : num;
  x2 : num;
  x1 : num;
  xu : num
}.
Arguments Build_locals {num} _ _ _ _.
Arguments xl {num} _.
Arguments x2 {num} _.
Arguments x1 {num} _.
Arguments xu {num} _.

Inductive run (num fval : Type) : Type :=
| Done (table : list (row num fval)) (final : num * num)
| Raised (table : list (row num fval)) (i : nat) (e : exn).
Arguments Done {num fval} _ _.
Arguments Raised {num fval} _ _ _.

Definition printed {num fval : Type} (r : row num fval) (res : run num fval)
    : run num fval :=
  match res with
  | Done t b => Done (r :: t) b
  | Raised t i e => Raised (r :: t) i e
  end.

Definition table_of {num fval : Type} (res : run num fval)
    : list (row num fval) :=
  match res with
  | Done t _ => t
  | Raised t _ _ => t
  end.

(** [l[i]] *)
Definition index {A : Type} (l : list A) (i : nat) : result A :=
  match nth_error l i with
  | Some a => inr a
  | None => inl IndexError
  end.

(** [if fx1 > fx2: xl, x2 = x2, x1  else: xu, x1 = x1, x2] *)
Definition eliminate {num : Type} (gt : bool) (b : locals num) : locals num :=
  if gt
  then {| xl := x2 b; x2 := x1 b; x1 := x1 b; xu := xu b |}
  else {| xl := xl b; x2 := x2 b; x1 := x2 b; xu := x1 b |}.

Section Search.

Local Open Scope result_scope.

Context {num fval : Type} {rt : Runtime num fval}.

(** [xu - .618*(xu-xl)] *)
Definition probe_x2 (lo hi : num) : result num :=
  d <- py_sub hi lo ;; m <- py_mul c618 d ;; py_sub hi m.

(** [xl + .618*(xu-xl)] *)
Definition probe_x1 (lo hi : num) : result num :=
  d <- py_sub hi lo ;; m <- py_mul c618 d ;; py_add lo m.

(** The loop body at index [i], entered with the bounds [lo], [hi]: the row
    it prints and the locals it leaves. *)
Definition pass (length error_bound : list num) (prec i : nat) (lo hi : num)
    : result (row num fval * locals num) :=
  p2 <- probe_x2 lo hi ;;
  p1 <- probe_x1 lo hi ;;
  fx2 <- sym_subs p2 ;;
  fx1 <- sym_subs p1 ;;
  len <- index length i ;;
  err <- index error_bound i ;;
  let data := Build_row (S i) lo p2 p1 hi fx2 fx1 len err in
  _ <- fmt_row prec data ;;
  gt <- sym_gt fx1 fx2 ;;
  ret (data, eliminate gt (Build_locals lo p2 p1 hi)).

(** The [for] loop: [n] iterations left, [i] the loop index. *)
Fixpoint loop (length error_bound : list num) (prec n i : nat) (lo hi : num)
    : run num fval :=
  match n with
  | O => Done [] (lo, hi)
  | S n' =>
      match pass length error_bound prec i lo hi with
      | inl e => Raised [] i e
      | inr (data, b) =>
          printed data (loop length error_bound prec n' (S i) (xl b) (xu b))
      end
  end.

(** The bounds the pass of index [i + k] starts from, when the [k] passes
    before it have not raised. *)
Fixpoint bounds_after (length error_bound : list num) (prec k i : nat)
    (lo hi : num) : option (num * num) :=
  match k with
  | O => Some (lo, hi)
  | S k' =>
      match pass length error_bound prec i lo hi with
      | inl _ => None
      | inr (_, b) =>
          bounds_after length error_bound prec k' (S i) (xl b) (xu b)
      end
  end.

Context {tb : Tables num}.

(** [round((xu-xl)*.618**(i+shift), prec)] *)
Definition entry (lo hi : num) (shift prec i : nat) : result num :=
  d <- py_sub hi lo ;;
  p <- py_pow c618 (i + shift) ;;
  v <- py_mul d p ;;
  py_round v prec.

(** [[entry for i in range(i, i+n)]] *)
Fixpoint entries (lo hi : num) (shift prec i n : nat) : result (list num) :=
  match n with
  | O => ret []
  | S n' =>
      v <- entry lo hi shift prec i ;;
      t <- entries lo hi shift prec (S i) n' ;;
      ret (v :: t)
  end.

(** The header and the lists [length] and [error_bound]. *)
Definition tables (itr_no : Z) (prec : nat) (lo hi : num)
    : result (list num * list num) :=
  _ <- fmt_header prec ;;
  length <- entries lo hi 0 prec 0 (range_len itr_no) ;;
  error_bound <- entries lo hi 2 prec 0 (range_len itr_no) ;;
  ret (length, error_bound).

Definition golden_section (itr_no : Z) (prec : nat) (lo hi : num)
    : run num fval :=
  match tables itr_no prec lo hi with
  | inl e => Raised [] 0 e
  | inr (length, error_bound) =>
      loop length error_bound prec (range_len itr_no) 0 lo hi
  end.

End Search.

(** Formatting a row whose objective values are the floats [fx2], [fx1]:
    a value that is exactly zero is sympy's exact [0], which the
    fixed-point spec of the row rejects with [TypeError]; a sympy Float
    rejects the spec at precision 0 (width 0 reads as zero padding, which
    conflicts with the alignment) with [ValueError].  The fields are
    formatted in order, [fx2] before [fx1]. *)
Definition fmt_floats (prec : nat) (fx2 fx1 : float) : result unit :=
  if PrimFloat.eqb fx2 0%float then inl TypeError
  else if Nat.eqb prec 0 then inl ValueError
  else if PrimFloat.eqb fx1 0%float then inl TypeError
  else inr tt.

(** Python floats: binary64, whose operations never raise.  The objective
    is [6x - x^2], evaluated by sympy in the same precision. *)
#[export] Instance binary64_hill : Runtime float float := {
  py_sub a b := inr (PrimFloat.sub a b);
  py_add a b := inr (PrimFloat.add a b);
  py_mul a b := inr (PrimFloat.mul a b);
  c618 := 0x1.3c6a7ef9db22dp-1%float;
  py_lt a b := PrimFloat.ltb a b = true;
  sym_subs v :=
    inr (PrimFloat.sub (PrimFloat.mul 6%float v) (PrimFloat.mul v v));
  sym_gt a b := inr (PrimFloat.ltb b a);
  fmt_row prec r := fmt_floats prec (r_fx2 r) (r_fx1 r)
}.

(** The operations read over the rationals, without rounding, for an
    objective [f]; a row formats at any precision but 0. *)
Definition exact {expr : Type} `{SymExpr expr} (f : expr) : Runtime Q Q := {|
  py_sub a b := inr (a - b);
  py_add a b := inr (a + b);
  py_mul a b := inr (a * b);
  c618 := phi;
  py_lt := Qlt;
  sym_subs v := inr (subs f v);
  sym_gt a b := inr (gt_bool a b);
  fmt_row prec _ := if Nat.eqb prec 0 then inl ValueError else inr tt
|}.

#[export] Instance exact_tables : Tables Q := {
  py_pow a i := inr (a ^ Z.of_nat i);
  py_round a p := inr (round_ndigits a p);
  fmt_header _ := inr tt
}.

End Machine.

(** * Newton's method: the run, iteration by iteration *)

Lemma Qabs_zero_iff (a : Q) : Qabs a == 0 <-> a == 0.
Proof.
  split; intro E.
  - revert E. apply Qabs_case; intros; lra.
  - rewrite E. reflexivity.
Qed.

Lemma Qeq_bool_Qabs (a : Q) : Qeq_bool (Qabs a) 0 = Qeq_bool a 0.
Proof.
  apply eq_true_iff_eq. rewrite !Qeq_bool_iff. apply Qabs_zero_iff.
Qed.

Lemma Qeq_bool_false_iff (a b : Q) : Qeq_bool a b = false <-> ~ a == b.
Proof.
  rewrite <- Qeq_bool_iff. destruct (Qeq_bool a b); split; congruence.
Qed.

Section NewtonRun.

Context {expr : Type} `{SymExpr expr}.
Variables df ddf : expr.

Local Abbreviation next := (newton_next df ddf).
Local Abbreviation iter := (iterate df ddf).
Local Abbreviation ok := (step_ok df ddf).
Local Abbreviation line := (line_at df ddf).
Local Abbreviation lines := (newton_lines df ddf).
Local Abbreviation oks := (all_ok df ddf).

Lemma iterate_shift (k : nat) (x : Q) :
  iter (S k) x = iter k (next x).
Proof.
  induction k as [|k IH]; [reflexivity|].
  change (next (iter (S k) x) = next (iter k (next x))).
  now rewrite IH.
Qed.

Lemma improved_regular (x : Q) :
  Qeq_bool (subs ddf x) 0 = false -> improved df ddf x = Fin (next x).
Proof.
  intro E. unfold improved, sdiv, ssub. now rewrite E.
Qed.

Lemma improved_singular (x : Q) :
  Qeq_bool (subs ddf x) 0 = true ->
  improved df ddf x = (if Qeq_bool (subs df x) 0 then NaN else Zoo).
Proof.
  intro E. unfold improved, sdiv, ssub. rewrite E.
  now destruct (Qeq_bool (subs df x) 0).
Qed.

Lemma relative_error_finite (a x : Q) :
  relative_error (Fin a) x =
  if Qeq_bool a 0
  then (if Qeq_bool (a - x) 0 then NaN else Zoo)
  else Fin (Qabs (a - x) / Qabs a).
Proof.
  unfold relative_error, sabs, ssub, sdiv. now rewrite !Qeq_bool_Qabs.
Qed.

(** One pass of the loop. *)
Lemma newton_loop_step (n i : nat) (x : Q) :
  newton_loop df ddf (S n) i x =
  if ok x
  then printed (line i x) (newton_loop df ddf n (S i) (next x))
  else LoopRaised [] i TypeError.
Proof.
  unfold step_ok. cbn [newton_loop].
  destruct (Qeq_bool (subs ddf x) 0) eqn:E2.
  - rewrite (improved_singular x E2). cbn.
    now destruct (Qeq_bool (subs df x) 0).
  - rewrite (improved_regular x E2), relative_error_finite. cbn.
    destruct (Qeq_bool (next x) 0) eqn:E0; cbn.
    + now destruct (Qeq_bool (next x - x) 0).
    + reflexivity.
Qed.

Lemma newton_loop_done (n i : nat) (x : Q) :
  oks n x = true ->
  newton_loop df ddf n i x = LoopDone (lines n i x) (iter n x).
Proof.
  revert i x. induction n as [|n IH]; intros i x Hok; [reflexivity|].
  cbn [all_ok] in Hok. apply andb_true_iff in Hok as [H1 H2].
  rewrite newton_loop_step, H1, (IH _ _ H2), iterate_shift. reflexivity.
Qed.

Lemma newton_loop_raised (k n i : nat) (x : Q) :
  (k < n)%nat -> oks k x = true -> ok (iter k x) = false ->
  newton_loop df ddf n i x = LoopRaised (lines k i x) (i + k) TypeError.
Proof.
  revert n i x. induction k as [|k IH]; intros n i x Hlt Hok Hbad.
  - destruct n as [|n]; [lia|]. cbn in Hbad.
    rewrite newton_loop_step, Hbad, Nat.add_0_r. reflexivity.
  - destruct n as [|n]; [lia|].
    cbn [all_ok] in Hok. apply andb_true_iff in Hok as [H1 H2].
    rewrite iterate_shift in Hbad.
    rewrite newton_loop_step, H1, (IH n (S i) _ ltac:(lia) H2 Hbad).
    cbn. f_equal. lia.
Qed.

Lemma newton_loop_done_inv (n i : nat) (x : Q) t xf :
  newton_loop df ddf n i x = LoopDone t xf ->
  oks n x = true /\ t = lines n i x /\ xf = iter n x.
Proof.
  revert i x t xf. induction n as [|n IH]; intros i x t xf E.
  - cbn in E. inversion E. auto.
  - rewrite newton_loop_step in E. cbn [all_ok].
    destruct (ok x); [|discriminate].
    destruct (newton_loop df ddf n (S i) (next x)) as [t' x'|] eqn:E';
      [|discriminate].
    cbn in E. inversion E; subst.
    destruct (IH _ _ _ _ E') as (-> & -> & ->).
    rewrite iterate_shift. auto.
Qed.

Lemma newton_lines_length (n i : nat) (x : Q) :
  length (lines n i x) = n.
Proof.
  revert i x. induction n as [|n IH]; intros; cbn; [|rewrite IH]; reflexivity.
Qed.

Lemma newton_lines_nth (n k i : nat) (x : Q) :
  (k < n)%nat ->
  nth_error (lines n i x) k = Some (line (i + k) (iter k x)).
Proof.
  revert k i x. induction n as [|n IH]; intros k i x Hlt; [lia|].
  destruct k as [|k]; cbn [newton_lines nth_error].
  - now rewrite Nat.add_0_r.
  - rewrite (IH k (S i) _ ltac:(lia)), <- iterate_shift.
    do 2 f_equal. lia.
Qed.

Lemma all_ok_iff (n : nat) (x : Q) :
  oks n x = true <->
  forall k, (k < n)%nat ->
    ~ subs ddf (iter k x) == 0 /\ ~ iter (S k) x == 0.
Proof.
  revert x. induction n as [|n IH]; intro x; cbn [all_ok].
  - split; [intros _ k Hk; lia | reflexivity].
  - rewrite andb_true_iff, IH. unfold step_ok.
    rewrite andb_true_iff, !negb_true_iff, !Qeq_bool_false_iff.
    split.
    + intros [[Ha Hb] Hr] [|k] Hk; [cbn; auto|].
      rewrite (iterate_shift (S k) x), (iterate_shift k x). apply Hr. lia.
    + intro Hall. split; [apply (Hall 0%nat); lia|].
      intros k Hk.
      rewrite <- (iterate_shift (S k) x), <- (iterate_shift k x).
      apply Hall. lia.
Qed.

End NewtonRun.

Lemma fmt_py_in_range (v : Q) :
  Qabs v < float_overflow -> fmt_py v = inr v.
Proof.
  intro Hlt. unfold fmt_py.
  destruct (Qle_bool float_overflow (Qabs v)) eqn:E; [|reflexivity].
  apply Qle_bool_iff in E. lra.
Qed.

Lemma fmt_py_overflow (v : Q) :
  float_overflow <= Qabs v -> fmt_py v = inl OverflowError.
Proof.
  intro Hle. unfold fmt_py. apply Qle_bool_iff in Hle. now rewrite Hle.
Qed.

Lemma fmt_old_after_pass (n : nat) (v : Q) :
  (0 < n)%nat -> fmt_old n v = inr v.
Proof.
  intro Hn. destruct n; [lia | reflexivity].
Qed.

Lemma range_len_pos (n : Z) : (1 <= n)%Z -> (0 < range_len n)%nat.
Proof.
  unfold range_len. lia.
Qed.

Section NewtonClaims.

Context {expr : Type} `{SymExpr expr}.
Variable self : opt_tech expr.
Variable xo : Q.

Let df := diff (fx self).
Let ddf := diff df.
Let N := range_len (itr_no self).
Let x (k : nat) : Q := iterate df ddf k xo.

(** C1, as the code has it.  With the two derivatives taken once before
    the loop and an iteration count of at least 1, a run whose second
    derivatives and new approximations are all non-zero performs exactly
    [itr_no] iterations: iteration [k+1] computes
    [x_new = x_old - f'(x_old)/f''(x_old)] from the approximation the
    previous iteration left in [x_old], and prints line [k+1] with [x_new]
    and the relative error [|x_new - x_old| / |x_new|]. *)
Theorem newton_iterations :
  (1 <= itr_no self)%Z ->
  (forall k, (k < N)%nat -> ~ subs ddf (x k) == 0 /\ ~ x (S k) == 0) ->
  exists trace v,
    newtons_method self xo = Finished trace v /\
    length trace = N /\
    x 0%nat = xo /\
    forall k, (k < N)%nat ->
      x (S k) = x k - subs df (x k) / subs ddf (x k) /\
      nth_error trace k =
        Some {| line_no := S k;
                approx := x (S k);
                rel_err := Qabs (x (S k) - x k) / Qabs (x (S k)) |}.
Proof.
  intros Hn Hreg. apply all_ok_iff in Hreg.
  pose proof (newton_loop_done df ddf N 0 xo Hreg) as Hloop.
  exists (newton_lines df ddf N 0 xo).
  unfold newtons_method. fold df ddf N. rewrite Hloop.
  rewrite (fmt_old_after_pass N _ (range_len_pos _ Hn)).
  destruct (acceptable (subs df (iterate df ddf N xo)));
    eexists; (split; [reflexivity|]);
    (split; [apply newton_lines_length|]); (split; [reflexivity|]);
    intros k Hk; (split; [reflexivity|]);
    rewrite (newton_lines_nth df ddf N k 0 xo Hk); reflexivity.
Qed.

(** C2, as the code has it.  When the loop has run to its end (and, if it
    made no pass, the initial guess is within float range, so that the
    verdict line can be formatted), the verdict is decided by the first
    derivative at the final approximation [x_final] (the approximation
    after [itr_no] iterations): if [|f'(x_final)|] is at most the double
    [0.01], which is [5764607523034235 / 2^59], the point is accepted and
    [f(x_final)] is reported as the maximum, otherwise it is rejected and
    no maximum is reported. *)
Theorem newton_verdict (trace : list iter_line) (x_final : Q) :
  newton_loop df ddf N 0 xo = LoopDone trace x_final ->
  (N = 0%nat -> Qabs xo < float_overflow) ->
  x_final = x N /\
  (Qabs (subs df x_final) <= 5764607523034235 # 576460752303423488 ->
     newtons_method self xo =
     Finished trace
       (Accepted x_final (subs df x_final) (subs (fx self) x_final))) /\
  (~ Qabs (subs df x_final) <= 5764607523034235 # 576460752303423488 ->
     newtons_method self xo = Finished trace (Rejected x_final)).
Proof.
  intros Hloop Hfmt.
  assert (Hx : x_final = x N).
  { now destruct (newton_loop_done_inv df ddf N 0 xo _ _ Hloop)
      as (_ & _ & ->). }
  split; [exact Hx|].
  assert (Hold : fmt_old N x_final = inr x_final).
  { destruct N as [|n] eqn:EN.
    - cbn. apply fmt_py_in_range. rewrite Hx. now apply Hfmt.
    - reflexivity. }
  unfold newtons_method. fold df ddf N. rewrite Hloop, Hold.
  unfold acceptable, threshold.
  split; intro Hle.
  - apply Qle_bool_iff in Hle. now rewrite Hle.
  - destruct (Qle_bool (Qabs (subs df x_final)) _) eqn:E; [|reflexivity].
    apply Qle_bool_iff in E. contradiction.
Qed.

(** C6, as the code has it.  When the second derivative is zero at a
    visited point, nothing checks it and the division raises nothing: the new
    approximation silently becomes a non-finite sympy number ([zoo], or
    [nan] when the first derivative is zero too).  The run ends at that
    iteration with a [TypeError], raised when the line is formatted; the
    lines of the earlier iterations have been printed, none for this one. *)
Theorem newton_zero_second_derivative (k : nat) :
  (k < N)%nat ->
  (forall j, (j < k)%nat -> ~ subs ddf (x j) == 0 /\ ~ x (S j) == 0) ->
  subs ddf (x k) == 0 ->
  (improved df ddf (x k) = Zoo \/ improved df ddf (x k) = NaN) /\
  exists trace,
    newtons_method self xo = Raised trace k TypeError /\
    length trace = k.
Proof.
  intros Hk Hreg Hz. apply all_ok_iff in Hreg. apply Qeq_bool_iff in Hz.
  split.
  - rewrite (improved_singular df ddf _ Hz).
    destruct (Qeq_bool (subs df (x k)) 0); auto.
  - exists (newton_lines df ddf k 0 xo).
    unfold newtons_method. fold df ddf N.
    rewrite (newton_loop_raised df ddf k N 0 xo Hk Hreg).
    + split; [reflexivity | apply newton_lines_length].
    + unfold step_ok. fold (x k). now rewrite Hz.
Qed.

(** C10.  The relative error divides by [|x_new|] unguarded: at an
    iteration whose new approximation is exactly 0 the quotient is not a
    number ([zoo], or [nan] when [x_old] is 0 as well) and the run stops
    there, the line of that iteration unprinted. *)
Theorem newton_zero_iterate (k : nat) :
  (k < N)%nat ->
  (forall j, (j < k)%nat -> ~ subs ddf (x j) == 0 /\ ~ x (S j) == 0) ->
  ~ subs ddf (x k) == 0 ->
  x (S k) == 0 ->
  improved df ddf (x k) = Fin (x (S k)) /\
  (relative_error (Fin (x (S k))) (x k) = Zoo \/
   relative_error (Fin (x (S k))) (x k) = NaN) /\
  exists trace,
    newtons_method self xo = Raised trace k TypeError /\
    length trace = k.
Proof.
  intros Hk Hreg Hnz Hz. apply all_ok_iff in Hreg.
  apply Qeq_bool_false_iff in Hnz. apply Qeq_bool_iff in Hz.
  split; [apply (improved_regular df ddf _ Hnz)|]. split.
  - rewrite relative_error_finite, Hz.
    destruct (Qeq_bool (x (S k) - x k) 0); auto.
  - exists (newton_lines df ddf k 0 xo).
    unfold newtons_method. fold df ddf N.
    rewrite (newton_loop_raised df ddf k N 0 xo Hk Hreg).
    + split; [reflexivity | apply newton_lines_length].
    + unfold step_ok. fold (x k).
      change (newton_next df ddf (x k)) with (x (S k)).
      rewrite Hz. apply andb_false_r.
Qed.

End NewtonClaims.


(** * Golden section: the run, iteration by iteration *)

Lemma nth_error_map_seq {A : Type} (g : nat -> A) (n s i : nat) :
  (i < n)%nat -> nth_error (map g (seq s n)) i = Some (g (s + i)%nat).
Proof.
  revert s i. induction n as [|n IH]; intros s i Hi; [lia|].
  destruct i as [|i]; cbn.
  - now rewrite Nat.add_0_r.
  - rewrite (IH (S s) i ltac:(lia)). f_equal. f_equal. lia.
Qed.

Lemma phi_pow_succ (k : nat) :
  phi ^ Z.of_nat (S k) == phi * phi ^ Z.of_nat k.
Proof.
  rewrite Nat2Z.inj_succ. unfold Z.succ.
  rewrite Qpower_plus by (unfold phi; intro E; discriminate E).
  change (phi ^ 1) with phi. ring.
Qed.

Lemma phi_pow_pos (k : nat) : 0 < phi ^ Z.of_nat k.
Proof.
  induction k as [|k IH]; [reflexivity|].
  rewrite phi_pow_succ. unfold phi in *.
  apply Qmult_lt_0_compat; [reflexivity | exact IH].
Qed.

Lemma gt_bool_true_iff (a b : Q) : gt_bool a b = true <-> b < a.
Proof.
  unfold gt_bool. rewrite negb_true_iff.
  destruct (Qle_bool a b) eqn:E.
  - apply Qle_bool_iff in E. split; [discriminate | intro; lra].
  - split; [intros _ | reflexivity].
    apply Qnot_le_lt. intro Hle. apply Qle_bool_iff in Hle. congruence.
Qed.

Lemma gt_bool_false_iff (a b : Q) : gt_bool a b = false <-> a <= b.
Proof.
  unfold gt_bool. rewrite negb_false_iff. apply Qle_bool_iff.
Qed.

Lemma place_ordered (lo hi : Q) :
  lo < hi ->
  xl (place lo hi) < x2 (place lo hi) /\
  x2 (place lo hi) < x1 (place lo hi) /\
  x1 (place lo hi) < xu (place lo hi).
Proof.
  intro Hlt. unfold place, phi. cbn. repeat split; lra.
Qed.

Section GoldenRun.

Context {expr : Type} `{SymExpr expr}.
Variable f : expr.

Local Abbreviation rows := (gs_rows f).
Local Abbreviation row_of := (row_at f).

Lemma gs_bounds_succ (k : nat) (p : Q * Q) :
  gs_bounds f (S k) p = gs_step f (gs_bounds f k p).
Proof.
  revert p. induction k as [|k IH]; intro p; [reflexivity|].
  change (gs_bounds f (S (S k)) p) with (gs_bounds f (S k) (gs_step f p)).
  now rewrite IH.
Qed.

Lemma gs_loop_done (L E : list Q) (lenf errf : nat -> Q) (n i : nat)
    (lo hi : Q) :
  (forall j, (i <= j < i + n)%nat ->
     nth_error L j = Some (lenf j) /\ nth_error E j = Some (errf j)) ->
  gs_loop f L E n i lo hi =
  GsDone (rows lenf errf n i (lo, hi)) (gs_bounds f n (lo, hi)).
Proof.
  revert i lo hi. induction n as [|n IH]; intros i lo hi Hidx; [reflexivity|].
  cbn [gs_loop]. destruct (Hidx i ltac:(lia)) as [-> ->].
  rewrite (IH (S i)) by (intros j Hj; apply Hidx; lia).
  reflexivity.
Qed.

Lemma gs_rows_length (lenf errf : nat -> Q) (n i : nat) (p : Q * Q) :
  length (rows lenf errf n i p) = n.
Proof.
  revert i p. induction n as [|n IH]; intros; cbn; [|rewrite IH]; reflexivity.
Qed.

Lemma gs_rows_nth (lenf errf : nat -> Q) (n k i : nat) (p : Q * Q) :
  (k < n)%nat ->
  nth_error (rows lenf errf n i p) k =
  Some (row_of lenf errf (i + k) (gs_bounds f k p)).
Proof.
  revert k i p. induction n as [|n IH]; intros k i p Hk; [lia|].
  destruct k as [|k]; cbn [gs_rows nth_error].
  - now rewrite Nat.add_0_r.
  - rewrite (IH k (S i) _ ltac:(lia)). cbn [gs_bounds].
    do 2 f_equal. lia.
Qed.

(** Either branch of the elimination leaves [.618] of the width. *)
Lemma gs_step_width (p : Q * Q) :
  snd (gs_step f p) - fst (gs_step f p) == phi * (snd p - fst p).
Proof.
  unfold gs_step, eliminate.
  destruct (gt_bool _ _); cbn; unfold phi; ring.
Qed.

Lemma gs_bounds_width (k : nat) (p : Q * Q) :
  snd (gs_bounds f k p) - fst (gs_bounds f k p) ==
  (snd p - fst p) * phi ^ Z.of_nat k.
Proof.
  induction k as [|k IH].
  - cbn. ring.
  - rewrite gs_bounds_succ, gs_step_width, IH, phi_pow_succ. ring.
Qed.



End GoldenRun.

Section GoldenTable.

Context {expr : Type} `{SymExpr expr}.
Variable self : opt_tech expr.
Variables lo hi : Q.

(** The loop never indexes the two lists out of range: the call returns,
    with one row per iteration. *)
Lemma golden_section_done :
  golden_section self lo hi =
  GsDone (gs_rows (fx self) (width_formula self lo hi)
                  (error_formula self lo hi)
                  (range_len (itr_no self)) 0 (lo, hi))
         (gs_bounds (fx self) (range_len (itr_no self)) (lo, hi)).
Proof.
  unfold golden_section. apply gs_loop_done.
  intros j Hj. unfold length_list, error_bound_list.
  rewrite !nth_error_map_seq by lia. now split.
Qed.

End GoldenTable.

(** The probe that the elimination carries over is overwritten by the next
    placement, and the value placed there is another one. *)
Lemma recomputed_probe_differs (lo hi : Q) :
  lo < hi ->
  let b := place lo hi in
  ~ x2 (place (x2 b) (xu b)) == x1 b /\
  ~ x1 (place (xl b) (x1 b)) == x2 b.
Proof.
  intros Hlt b. unfold b, place, phi. cbn. split; intro E; lra.
Qed.

(** C5 (the code at [f(x) = 6x - x^2], bracket [(0, 4)], two iterations).
    The first iteration takes the [fx1 > fx2] branch and stores the former
    [x1] in [x2], but the second iteration places both probes anew:
    neither of its probes is one of the first iteration's. *)
Theorem golden_probe_recomputed :
  exists r1 r2 final,
    golden_section (Build_opt_tech hill 2 3) 0 4 = GsDone [r1; r2] final /\
    row_fx2 r1 < row_fx1 r1 /\
    x2 (eliminate (row_fx1 r1) (row_fx2 r1) (place 0 4)) = row_x1 r1 /\
    ~ row_x2 r2 == row_x1 r1 /\ ~ row_x1 r2 == row_x1 r1 /\
    ~ row_x2 r2 == row_x2 r1 /\ ~ row_x1 r2 == row_x2 r1.
Proof.
  eexists _, _, _. split; [vm_compute; reflexivity|].
  cbn [row_fx1 row_fx2 row_x1 row_x2].
  split; [reflexivity|]. split; [reflexivity|].
  repeat split; intro E; discriminate E.
Qed.

(** C8, as the code has it.  With an iteration count below 1 nothing is
    checked and neither method makes an iteration.  Newton's method prints
    no iteration line and goes straight to the verdict on the initial
    guess: it returns normally with that verdict when the guess is within
    float range, and raises [OverflowError] while formatting the verdict
    line when the guess is an int beyond it.  The golden section prints
    no row and leaves the bounds as given. *)
Theorem zero_iterations {expr : Type} `{SymExpr expr}
    (self : opt_tech expr) (xo lo hi : Q) :
  (itr_no self < 1)%Z ->
  (Qabs xo < float_overflow ->
   newtons_method self xo =
     Finished []
       (if Qle_bool (Qabs (subs (diff (fx self)) xo))
                    (5764607523034235 # 576460752303423488)
        then Accepted xo (subs (diff (fx self)) xo) (subs (fx self) xo)
        else Rejected xo)) /\
  (float_overflow <= Qabs xo ->
   newtons_method self xo = Raised [] 0 OverflowError) /\
  golden_section self lo hi = GsDone [] (lo, hi).
Proof.
  intro Hlt.
  assert (E : range_len (itr_no self) = 0%nat) by (unfold range_len; lia).
  unfold newtons_method, golden_section, acceptable, threshold.
  rewrite E. cbn [newton_loop fmt_old gs_loop].
  split; [|split; [|reflexivity]]; intro Hx.
  - rewrite (fmt_py_in_range _ Hx). now destruct (Qle_bool _ _).
  - now rewrite (fmt_py_overflow _ Hx).
Qed.

(** * Concrete runs *)

Example round_half_even_ties :
  round_half_even (1 # 2) = 0%Z /\ round_half_even (3 # 2) = 2%Z /\
  round_half_even (5 # 2) = 2%Z /\ round_half_even (-(1 # 2)) = 0%Z /\
  round_half_even (7 # 4) = 2%Z.
Proof. repeat split. Qed.

Example round_ndigits_error_bound :
  round_ndigits (4 * phi ^ 2) 3 == 1528 # 1000.
Proof. reflexivity. Qed.

Example sympy_zero_divisors :
  sdiv (Fin 1) (Fin 0) = Zoo /\ sdiv (Fin 0) (Fin 0) = NaN /\
  ssub (Fin 0) Zoo = Zoo /\ sabs Zoo = Oo /\ sdiv Oo Oo = NaN.
Proof. repeat split. Qed.

(** At [f(x) = x^2] from [x0 = 1] the second derivative is 2, yet the
    first new approximation is 0: the run of two iterations raises in its
    first iteration and prints no line. *)
Lemma newton_iterations_counterexample :
  subs (diff (diff square)) 1 == 2 /\
  improved (diff square) (diff (diff square)) 1 = Fin (1 - 2 / 2) /\
  newtons_method (Build_opt_tech square 2 3) 1 = Raised [] 0 TypeError.
Proof.
  split; [vm_compute; reflexivity|].
  split; vm_compute; reflexivity.
Qed.

(** With [f'] equal to [1/100 + 10^-21] at the final approximation, above
    [0.01], the point is accepted and a maximum reported. *)
Lemma newton_verdict_counterexample :
  1 # 100 < subs (diff slope) 1 /\
  newtons_method (Build_opt_tech slope 0 3) 1 =
  Finished [] (Accepted 1 (subs (diff slope) 1) (subs slope 1)).
Proof.
  split; vm_compute; reflexivity.
Qed.

Lemma newton_iterations_witness :
  exists trace v,
    newtons_method (Build_opt_tech quad 2 3) 1 = Finished trace v /\
    length trace = 2%nat.
Proof.
  destruct (newton_iterations (Build_opt_tech quad 2 3) 1)
    as (t & v & E & L & _).
  - vm_compute. intro D; discriminate D.
  - intros k Hk. vm_compute in Hk.
    destruct k as [|[|k]]; [| |lia];
      vm_compute; split; intro D; discriminate D.
  - exists t, v. split; assumption.
Defined.

Lemma newton_verdict_witness :
  exists trace xf fd fmax,
    newtons_method (Build_opt_tech quad 2 3) 1 =
    Finished trace (Accepted xf fd fmax) /\ xf == 2 /\ fmax == 4.
Proof.
  pose (df := diff quad). pose (ddf := diff df).
  assert (E : newton_loop df ddf (range_len 2) 0 1 =
              LoopDone (newton_lines df ddf 2 0 1) (iterate df ddf 2 1))
    by (vm_compute; reflexivity).
  destruct (newton_verdict (Build_opt_tech quad 2 3) 1 _ _ E)
    as (_ & Hacc & _).
  { intro D. vm_compute in D. discriminate D. }
  eexists _, _, _, _. split; [apply Hacc|split].
  - vm_compute. intro D; discriminate D.
  - vm_compute. reflexivity.
  - vm_compute. reflexivity.
Defined.

Lemma newton_zero_second_derivative_counterexample :
  subs (diff (diff cubic)) 0 == 0 /\
  improved (diff cubic) (diff (diff cubic)) 0 = Zoo /\
  newtons_method (Build_opt_tech cubic 3 3) 0 = Raised [] 0 TypeError /\
  forall t i,
    newtons_method (Build_opt_tech cubic 3 3) 0 <> Raised t i ZeroDivisionError.
Proof.
  split; [vm_compute; reflexivity|].
  split; [vm_compute; reflexivity|].
  split; [vm_compute; reflexivity|].
  intros t i D. vm_compute in D. discriminate D.
Qed.

Lemma newton_zero_second_derivative_witness :
  exists trace,
    newtons_method (Build_opt_tech cubic 3 3) 0 = Raised trace 0 TypeError /\
    length trace = 0%nat.
Proof.
  destruct (newton_zero_second_derivative (Build_opt_tech cubic 3 3) 0 0)
    as (_ & t & E & L).
  - vm_compute. lia.
  - intros j Hj. lia.
  - vm_compute. reflexivity.
  - exists t. split; assumption.
Defined.

Lemma newton_zero_iterate_witness :
  exists trace,
    newtons_method (Build_opt_tech square 2 3) 1 = Raised trace 0 TypeError /\
    length trace = 0%nat.
Proof.
  destruct (newton_zero_iterate (Build_opt_tech square 2 3) 1 0)
    as (_ & _ & t & E & L).
  - vm_compute. lia.
  - intros j Hj. lia.
  - vm_compute. intro D; discriminate D.
  - vm_compute. reflexivity.
  - exists t. split; assumption.
Defined.

Lemma golden_inverted_bracket_counterexample :
  exists r final,
    golden_section (Build_opt_tech hill 1 3) 1 1 = GsDone [r] final /\
    row_no r = 1%nat /\ row_xl r = 1 /\ row_xu r = 1.
Proof.
  eexists _, _. split; [vm_compute; reflexivity|].
  repeat split.
Qed.

Lemma zero_iterations_counterexample :
  newtons_method (Build_opt_tech quad 0 3) 1 = Finished [] (Rejected 1) /\
  golden_section (Build_opt_tech quad 0 3) 0 4 = GsDone [] (0, 4).
Proof.
  split; vm_compute; reflexivity.
Qed.

Lemma zero_iterations_witness :
  newtons_method (Build_opt_tech quad (-2) 3) 2 =
    Finished [] (Accepted 2 (subs (diff quad) 2) (subs quad 2)) /\
  golden_section (Build_opt_tech quad (-2) 3) 0 4 = GsDone [] (0, 4).
Proof.
  destruct (zero_iterations (Build_opt_tech quad (-2) 3) 2 0 4)
    as (Hfin & _ & Hgs).
  - vm_compute. reflexivity.
  - split; [|exact Hgs]. refine (Hfin _). vm_compute. reflexivity.
Defined.

(** * Newton's method: every run *)

Lemma last_default_irrelevant {A : Type} (l : list A) (d d' : A) :
  l <> [] -> last l d = last l d'.
Proof.
  induction l as [|a [|b l] IH]; intro Hne; [congruence | reflexivity |].
  change (last (b :: l) d = last (b :: l) d'). apply IH. discriminate.
Qed.

Section NewtonEveryRun.

Context {expr : Type} `{SymExpr expr}.
Variables df ddf : expr.

Local Abbreviation next := (newton_next df ddf).
Local Abbreviation iter := (iterate df ddf).
Local Abbreviation ok := (step_ok df ddf).
Local Abbreviation lines := (newton_lines df ddf).
Local Abbreviation oks := (all_ok df ddf).

(** The loop either runs all its passes or stops at the first one that
    does not go through. *)
Lemma newton_loop_cases (n i : nat) (x : Q) :
  (oks n x = true /\
   newton_loop df ddf n i x = LoopDone (lines n i x) (iter n x)) \/
  (exists k, (k < n)%nat /\ oks k x = true /\ ok (iter k x) = false /\
     newton_loop df ddf n i x = LoopRaised (lines k i x) (i + k) TypeError).
Proof.
  destruct (oks n x) eqn:E.
  - left. split; [reflexivity | now apply newton_loop_done].
  - right. revert x E. induction n as [|n IH]; intros x E; [discriminate|].
    cbn [all_ok] in E. destruct (ok x) eqn:E1.
    + destruct (IH _ E) as (k & Hk & Hok & Hbad & _).
      exists (S k). rewrite iterate_shift.
      assert (Hoks : oks (S k) x = true) by (cbn [all_ok]; now rewrite E1).
      repeat split; [lia | exact Hoks | exact Hbad |].
      apply newton_loop_raised; [lia | exact Hoks |].
      now rewrite iterate_shift.
    + exists 0%nat. repeat split; [lia | exact E1 |].
      now apply newton_loop_raised; [lia | |].
Qed.

Lemma all_ok_le (n k : nat) (x : Q) :
  (k <= n)%nat -> oks n x = true -> oks k x = true.
Proof.
  intros Hle Hn. apply all_ok_iff. intros j Hj.
  apply (proj1 (all_ok_iff df ddf n x) Hn). lia.
Qed.

Lemma step_ok_iff (x : Q) :
  ok x = true <-> ~ subs ddf x == 0 /\ ~ next x == 0.
Proof.
  unfold step_ok.
  now rewrite andb_true_iff, !negb_true_iff, !Qeq_bool_false_iff.
Qed.

Lemma newton_lines_firstn (n m i : nat) (x : Q) :
  firstn n (lines (n + m) i x) = lines n i x.
Proof.
  revert i x. induction n as [|n IH]; intros i x; [reflexivity|].
  cbn. now rewrite IH.
Qed.

Lemma newton_lines_last (n i : nat) (x : Q) :
  last (map approx (lines n i x)) x = iter n x.
Proof.
  revert i x. induction n as [|n IH]; intros i x; [reflexivity|].
  rewrite iterate_shift, <- (IH (S i) (next x)).
  cbn [newton_lines map].
  destruct (map approx (lines n (S i) (next x))) as [|q l] eqn:E.
  - reflexivity.
  - change (last (q :: l) x = last (q :: l) (next x)).
    apply last_default_irrelevant. discriminate.
Qed.

End NewtonEveryRun.

Lemma newtons_method_finished_inv {expr : Type} `{SymExpr expr}
    (self : opt_tech expr) (xo : Q) (trace : list iter_line) (v : verdict) :
  newtons_method self xo = Finished trace v ->
  newton_loop (diff (fx self)) (diff (diff (fx self)))
              (range_len (itr_no self)) 0 xo
  = LoopDone trace (verdict_point v).
Proof.
  unfold newtons_method.
  destruct (newton_loop _ _ _ _ _) as [t xf|t i e]; [|discriminate].
  destruct (fmt_old _ _); [discriminate|].
  destruct (acceptable _); intro E; inversion E; reflexivity.
Qed.

(** The lines of any call are those of a run of passes that all went
    through, as many as were printed. *)
Lemma newtons_method_trace {expr : Type} `{SymExpr expr}
    (self : opt_tech expr) (xo : Q) :
  let df := diff (fx self) in
  let ddf := diff df in
  exists k, (k <= range_len (itr_no self))%nat /\
    all_ok df ddf k xo = true /\
    trace_of (newtons_method self xo) = newton_lines df ddf k 0 xo /\
    ((k < range_len (itr_no self))%nat ->
       step_ok df ddf (iterate df ddf k xo) = false /\
       newtons_method self xo =
       Raised (newton_lines df ddf k 0 xo) k TypeError).
Proof.
  intros df ddf. unfold newtons_method. fold df ddf.
  destruct (newton_loop_cases df ddf (range_len (itr_no self)) 0 xo)
    as [[Hok ->] | (k & Hk & Hok & Hbad & ->)].
  - exists (range_len (itr_no self)). split; [lia|]. split; [exact Hok|].
    split; [|lia].
    destruct (fmt_old _ _); [reflexivity | now destruct (acceptable _)].
  - exists k. split; [lia|]. split; [exact Hok|]. split; [reflexivity|].
    intros _. split; [exact Hbad | reflexivity].
Qed.

Section NewtonExtras.

Context {expr : Type} `{SymExpr expr}.
Variable self : opt_tech expr.
Variable xo : Q.

Let df := diff (fx self).
Let ddf := diff df.
Let N := range_len (itr_no self).
Let x (k : nat) : Q := iterate df ddf k xo.

(** X2.  Whatever the outcome, the [j]-th line printed is numbered [j+1]
    and shows the approximation [x_(j+1) = x_j - f'(x_j)/f''(x_j)], where
    [f''(x_j)] is not zero; the approximation shown is never zero and the
    relative error shown is never negative. *)
Theorem newton_printed_lines (j : nat) (l : iter_line) :
  nth_error (trace_of (newtons_method self xo)) j = Some l ->
  line_no l = S j /\
  approx l = x (S j) /\
  x (S j) = x j - subs df (x j) / subs ddf (x j) /\
  ~ subs ddf (x j) == 0 /\
  ~ approx l == 0 /\
  0 <= rel_err l.
Proof.
  intro Hl.
  destruct (newtons_method_trace self xo) as (k & _ & Hok & Ht & _).
  fold df ddf in Hok, Ht. rewrite Ht in Hl.
  assert (Hj : (j < k)%nat).
  { rewrite <- (newton_lines_length df ddf k 0 xo).
    apply nth_error_Some. congruence. }
  rewrite (newton_lines_nth df ddf k j 0 xo Hj) in Hl.
  inversion Hl; subst l; clear Hl.
  destruct (proj1 (all_ok_iff df ddf k xo) Hok j Hj) as [Hdd Hnz].
  fold (x j) in Hdd. fold (x (S j)) in Hnz.
  cbn [line_at line_no approx rel_err]. fold (x j).
  change (newton_next df ddf (x j)) with (x (S j)).
  repeat split; try assumption.
  apply Qle_shift_div_l.
  - pose proof (Qabs_nonneg (x (S j))) as Hnn.
    destruct (Qle_lt_or_eq _ _ Hnn) as [Hlt | Heq]; [exact Hlt|].
    exfalso. apply Hnz. apply Qabs_zero_iff. now symmetry.
  - rewrite Qmult_0_l. apply Qabs_nonneg.
Qed.

(** X3.  When the first derivative is zero at the approximation an
    iteration starts from and the iteration's line is printed, the line
    shows that same approximation again, with relative error 0. *)
Theorem newton_relative_error_zero (j : nat) (l : iter_line) :
  nth_error (trace_of (newtons_method self xo)) j = Some l ->
  subs df (x j) == 0 ->
  approx l == x j /\ rel_err l == 0.
Proof.
  intros Hl E.
  destruct (newtons_method_trace self xo) as (k & _ & Hok & Ht & _).
  fold df ddf in Hok, Ht. rewrite Ht in Hl.
  assert (Hj : (j < k)%nat).
  { rewrite <- (newton_lines_length df ddf k 0 xo).
    apply nth_error_Some. congruence. }
  rewrite (newton_lines_nth df ddf k j 0 xo Hj) in Hl.
  inversion Hl; subst l; clear Hl.
  destruct (proj1 (all_ok_iff df ddf k xo) Hok j Hj) as [Hdd Hnz].
  fold (x j) in Hdd. fold (x (S j)) in Hnz.
  cbn [line_at rel_err approx]. fold (x j).
  change (newton_next df ddf (x j)) with (x (S j)).
  assert (Hstep : x (S j) == x j).
  { change (x (S j)) with (x j - subs df (x j) / subs ddf (x j)).
    rewrite E. field. exact Hdd. }
  assert (Habs : ~ Qabs (x (S j)) == 0) by (now rewrite Qabs_zero_iff).
  split; [exact Hstep|].
  assert (E1 : x (S j) - x j == 0) by (rewrite Hstep; ring).
  rewrite E1. cbn. field. exact Habs.
Qed.

(** X4.  When a call returns, its verdict is about the approximation of
    the last line printed, or about the initial guess when no line was
    printed. *)
Theorem newton_verdict_point (trace : list iter_line) (v : verdict) :
  newtons_method self xo = Finished trace v ->
  verdict_point v = last (map approx trace) xo.
Proof.
  intro E. apply newtons_method_finished_inv in E. fold df ddf N in E.
  destruct (newton_loop_done_inv df ddf N 0 xo _ _ E) as (_ & -> & ->).
  symmetry. apply newton_lines_last.
Qed.

(** X5.  Started at the origin when the origin is already a stationary
    point, a call with at least one iteration raises in its first
    iteration and prints nothing: either the second derivative is zero
    there, or the new approximation is 0 and the relative error is [0/0]. *)
Theorem newton_stationary_origin :
  (1 <= itr_no self)%Z ->
  xo == 0 ->
  subs df xo == 0 ->
  newtons_method self xo = Raised [] 0 TypeError.
Proof.
  intros Hn Hx Hd.
  destruct (newtons_method_trace self xo) as (k & Hk & Hok & _ & Hr).
  fold df ddf N in Hk, Hok, Hr.
  assert (Hbad : step_ok df ddf xo = false).
  { unfold step_ok.
    destruct (Qeq_bool (subs ddf xo) 0) eqn:E2; [reflexivity|].
    apply Qeq_bool_false_iff in E2. cbn.
    apply negb_false_iff, Qeq_bool_iff.
    unfold newton_next. fold df ddf. rewrite Hx at 1. rewrite Hd.
    field. exact E2. }
  destruct k as [|k].
  - apply Hr. unfold N, range_len. lia.
  - cbn [all_ok] in Hok. rewrite Hbad in Hok. discriminate.
Qed.

End NewtonExtras.

Section NewtonLinearDerivative.

Context {expr : Type} `{SymExpr expr}.
Variable self : opt_tech expr.
Variable xo : Q.
Variables m s : Q.

Let df := diff (fx self).
Let ddf := diff df.
Let N := range_len (itr_no self).

Hypothesis ddf_const : forall y, subs ddf y == m.
Hypothesis df_linear : forall y, subs df y == m * (y - s).
Hypothesis m_nonzero : ~ m == 0.
Hypothesis s_nonzero : ~ s == 0.

Lemma linear_next (y : Q) : newton_next df ddf y == s.
Proof.
  unfold newton_next. rewrite ddf_const, df_linear. field. exact m_nonzero.
Qed.

Lemma linear_all_ok (n : nat) (y : Q) : all_ok df ddf n y = true.
Proof.
  revert y. induction n as [|n IH]; intro y; [reflexivity|].
  cbn [all_ok]. rewrite IH, andb_true_r. apply step_ok_iff. split.
  - now rewrite ddf_const.
  - now rewrite linear_next.
Qed.

Lemma linear_lines (n i : nat) (y : Q) (l : iter_line) :
  In l (newton_lines df ddf n i y) -> approx l == s.
Proof.
  revert i y. induction n as [|n IH]; intros i y Hin; [contradiction|].
  destruct Hin as [<- | Hin]; [apply linear_next | exact (IH _ _ Hin)].
Qed.

(** X6.  For an objective whose first derivative is linear,
    [f'(y) = m (y - s)] with [f'' = m], neither [m] nor [s] zero (a
    parabola with its vertex at [s]), a call with at least one iteration
    lands on [s] in its first iteration whatever the initial guess: every
    line shows [s], every line after the first shows relative error 0, and
    the point is accepted with [f'] zero there. *)
Theorem newton_linear_derivative :
  (1 <= itr_no self)%Z ->
  exists trace xf fd fmax,
    newtons_method self xo = Finished trace (Accepted xf fd fmax) /\
    length trace = N /\
    xf == s /\ fd == 0 /\
    (forall l, In l trace -> approx l == s) /\
    (forall j l, nth_error trace (S j) = Some l -> rel_err l == 0).
Proof.
  intro Hn.
  pose proof (newton_loop_done df ddf N 0 xo (linear_all_ok N xo)) as Hloop.
  assert (Hfinal : iterate df ddf N xo == s).
  { destruct N as [|n] eqn:EN; [unfold N, range_len in EN; lia|].
    apply linear_next. }
  assert (Hfd : subs df (iterate df ddf N xo) == 0).
  { rewrite df_linear, Hfinal. ring. }
  assert (Hacc : acceptable (subs df (iterate df ddf N xo)) = true).
  { unfold acceptable. apply Qle_bool_iff.
    rewrite (proj2 (Qabs_zero_iff _) Hfd). discriminate. }
  eexists _, _, _, _. split.
  { unfold newtons_method. fold df ddf N. rewrite Hloop, Hacc.
    now rewrite (fmt_old_after_pass N _ (range_len_pos _ Hn)). }
  split; [apply newton_lines_length|].
  split; [exact Hfinal|]. split; [exact Hfd|].
  split; [intros l Hl; exact (linear_lines _ _ _ _ Hl)|].
  intros j l Hl.
  assert (Hj : (S j < N)%nat).
  { rewrite <- (newton_lines_length df ddf N 0 xo).
    apply nth_error_Some. congruence. }
  rewrite (newton_lines_nth df ddf N (S j) 0 xo Hj) in Hl.
  inversion Hl; subst l; clear Hl. cbn [line_at rel_err].
  assert (E : newton_next df ddf (iterate df ddf (S j) xo)
              - iterate df ddf (S j) xo == 0).
  { rewrite linear_next. cbn [iterate]. rewrite linear_next. ring. }
  rewrite (proj2 (Qabs_zero_iff _) E). field.
  rewrite Qabs_zero_iff, linear_next. exact s_nonzero.
Qed.

End NewtonLinearDerivative.

(** X7.  Asking for more iterations only adds lines: when a call
    returns, a call on the same objective and initial guess with a larger
    iteration count prints the same lines first. *)
Theorem newton_more_iterations {expr : Type} `{SymExpr expr}
    (f : expr) (n n' : Z) (p p' : nat) (xo : Q)
    (trace : list iter_line) (v : verdict) :
  (n <= n')%Z ->
  newtons_method (Build_opt_tech f n p) xo = Finished trace v ->
  firstn (length trace)
         (trace_of (newtons_method (Build_opt_tech f n' p') xo)) = trace.
Proof.
  intros Hle E. apply newtons_method_finished_inv in E. cbn [fx itr_no] in E.
  set (df := diff f) in *. set (ddf := diff df) in *.
  destruct (newton_loop_done_inv df ddf _ 0 xo _ _ E) as (Hok & -> & _).
  rewrite newton_lines_length.
  destruct (newtons_method_trace (Build_opt_tech f n' p') xo)
    as (k & Hk & Hokk & -> & Hr).
  cbn [fx itr_no] in *. fold df ddf in Hokk, Hr |- *.
  assert (Hnk : (range_len n <= k)%nat).
  { destruct (Nat.le_gt_cases (range_len n) k) as [Hc | Hc]; [exact Hc|].
    exfalso.
    assert (Hk' : (k < range_len n')%nat) by (unfold range_len in *; lia).
    destruct (Hr Hk') as [Hbad _].
    destruct (proj1 (all_ok_iff df ddf _ xo) Hok k Hc) as [Ha Hb].
    rewrite (proj2 (step_ok_iff df ddf (iterate df ddf k xo))) in Hbad;
      [discriminate | now split]. }
  replace k with (range_len n + (k - range_len n))%nat by lia.
  apply newton_lines_firstn.
Qed.

Section GoldenEveryRun.

Context {expr : Type} `{SymExpr expr}.
Variable f : expr.

Local Abbreviation rows := (gs_rows f).

Lemma gs_rows_firstn (lenf errf : nat -> Q) (n m i : nat) (p : Q * Q) :
  firstn n (rows lenf errf (n + m) i p) = rows lenf errf n i p.
Proof.
  revert i p. induction n as [|n IH]; intros i p; [reflexivity|].
  cbn. now rewrite IH.
Qed.



End GoldenEveryRun.

(** The rows of a call. *)
Lemma golden_section_table {expr : Type} `{SymExpr expr}
    (self : opt_tech expr) (lo hi : Q) :
  table_of (golden_section self lo hi) =
  gs_rows (fx self) (width_formula self lo hi) (error_formula self lo hi)
          (range_len (itr_no self)) 0 (lo, hi).
Proof.
  now rewrite golden_section_done.
Qed.

Lemma golden_section_row {expr : Type} `{SymExpr expr}
    (self : opt_tech expr) (lo hi : Q) (i : nat) (r : row) :
  nth_error (table_of (golden_section self lo hi)) i = Some r ->
  (i < range_len (itr_no self))%nat /\
  r = row_at (fx self) (width_formula self lo hi) (error_formula self lo hi)
             i (gs_bounds (fx self) i (lo, hi)).
Proof.
  rewrite golden_section_table. intro Hr.
  assert (Hi : (i < range_len (itr_no self))%nat).
  { assert (Hlen : nth_error
              (gs_rows (fx self) (width_formula self lo hi)
                 (error_formula self lo hi) (range_len (itr_no self)) 0
                 (lo, hi)) i <> None) by (rewrite Hr; discriminate).
    apply nth_error_Some in Hlen. now rewrite gs_rows_length in Hlen. }
  rewrite (gs_rows_nth (fx self) _ _ _ i 0 (lo, hi) Hi) in Hr.
  split; [exact Hi | now inversion Hr].
Qed.

Section GoldenExtras.

Context {expr : Type} `{SymExpr expr}.
Variable self : opt_tech expr.
Variables lo hi : Q.

Let f := fx self.
Let N := range_len (itr_no self).
Let table := table_of (golden_section self lo hi).


(** X10.  The error bound a row reports is the width reported two rows
    further down: both are [round((xu-xl)*.618**(i+2), prec)]. *)
Theorem golden_error_bound_column (i : nat) (r r2 : row) :
  nth_error table i = Some r ->
  nth_error table (i + 2) = Some r2 ->
  row_err r = row_len r2.
Proof.
  intros Hr Hr2.
  apply golden_section_row in Hr as [_ ->].
  apply golden_section_row in Hr2 as [_ ->].
  reflexivity.
Qed.

End GoldenExtras.

(** X14.  Asking for more iterations only adds rows: with the same
    objective, bounds and precision, the table of a call with a larger
    iteration count starts with the rows of the smaller one. *)
Theorem golden_more_iterations {expr : Type} `{SymExpr expr}
    (f : expr) (n n' : Z) (p : nat) (lo hi : Q) :
  (n <= n')%Z ->
  firstn (range_len n)
         (table_of (golden_section (Build_opt_tech f n' p) lo hi)) =
  table_of (golden_section (Build_opt_tech f n p) lo hi).
Proof.
  intro Hle. rewrite !golden_section_table. cbn [fx itr_no].
  replace (range_len n') with (range_len n + (range_len n' - range_len n))%nat
    by (unfold range_len; lia).
  apply gs_rows_firstn.
Qed.

(** * Concrete runs, continued *)

Lemma newton_printed_lines_witness :
  exists l,
    nth_error (trace_of (newtons_method (Build_opt_tech quad 2 3) 1)) 0
    = Some l /\
    line_no l = 1%nat /\ ~ approx l == 0 /\ 0 <= rel_err l.
Proof.
  destruct (nth_error (trace_of (newtons_method (Build_opt_tech quad 2 3) 1)) 0)
    as [l|] eqn:E; [|vm_compute in E; discriminate E].
  exists l. split; [reflexivity|].
  destruct (newton_printed_lines (Build_opt_tech quad 2 3) 1 0 l E)
    as (Hn & _ & _ & _ & Hz & Hr).
  repeat split; assumption.
Defined.

Lemma newton_relative_error_zero_witness :
  exists l,
    nth_error (trace_of (newtons_method (Build_opt_tech quad 2 3) 1)) 1
    = Some l /\
    rel_err l == 0.
Proof.
  destruct (nth_error (trace_of (newtons_method (Build_opt_tech quad 2 3) 1)) 1)
    as [l|] eqn:E; [|vm_compute in E; discriminate E].
  exists l. split; [reflexivity|].
  apply (newton_relative_error_zero (Build_opt_tech quad 2 3) 1 1 l E).
  vm_compute. reflexivity.
Defined.

Lemma newton_verdict_point_witness :
  exists trace v,
    newtons_method (Build_opt_tech quad 2 3) 1 = Finished trace v /\
    verdict_point v = last (map approx trace) 1.
Proof.
  destruct (newtons_method (Build_opt_tech quad 2 3) 1) as [t v|t i e] eqn:E;
    [|vm_compute in E; discriminate E].
  exists t, v. split; [reflexivity|].
  exact (newton_verdict_point (Build_opt_tech quad 2 3) 1 t v E).
Defined.

Lemma newton_stationary_origin_witness :
  newtons_method (Build_opt_tech square 2 3) 0 = Raised [] 0 TypeError.
Proof.
  apply (newton_stationary_origin (Build_opt_tech square 2 3) 0).
  - vm_compute. intro D; discriminate D.
  - reflexivity.
  - vm_compute. reflexivity.
Defined.

Lemma newton_linear_derivative_witness :
  exists trace xf fd fmax,
    newtons_method (Build_opt_tech quad 3 3) 5 =
    Finished trace (Accepted xf fd fmax) /\
    length trace = 3%nat /\ xf == 2.
Proof.
  destruct (newton_linear_derivative (Build_opt_tech quad 3 3) 5 (-2) 2)
    as (t & xf & fd & fmax & E & L & X & _).
  - intro y. cbn. ring.
  - intro y. cbn. ring.
  - intro D; discriminate D.
  - intro D; discriminate D.
  - vm_compute. intro D; discriminate D.
  - exists t, xf, fd, fmax. repeat split; assumption.
Defined.

Lemma newton_more_iterations_witness :
  exists trace v,
    newtons_method (Build_opt_tech quad 1 3) 1 = Finished trace v /\
    firstn (length trace)
           (trace_of (newtons_method (Build_opt_tech quad 2 3) 1)) = trace.
Proof.
  destruct (newtons_method (Build_opt_tech quad 1 3) 1) as [t v|t i e] eqn:E;
    [|vm_compute in E; discriminate E].
  exists t, v. split; [reflexivity|].
  apply (newton_more_iterations quad 1 2 3 3 1 t v); [|exact E].
  vm_compute. intro D; discriminate D.
Defined.


Lemma golden_error_bound_column_witness :
  exists r r2,
    nth_error (table_of (golden_section (Build_opt_tech hill 8 4) 0 4)) 1
    = Some r /\
    nth_error (table_of (golden_section (Build_opt_tech hill 8 4) 0 4)) 3
    = Some r2 /\
    row_err r = row_len r2.
Proof.
  destruct (nth_error
              (table_of (golden_section (Build_opt_tech hill 8 4) 0 4)) 1)
    as [r|] eqn:E; [|vm_compute in E; discriminate E].
  destruct (nth_error
              (table_of (golden_section (Build_opt_tech hill 8 4) 0 4)) 3)
    as [r2|] eqn:E2; [|vm_compute in E2; discriminate E2].
  exists r, r2. split; [reflexivity|]. split; [reflexivity|].
  exact (golden_error_bound_column (Build_opt_tech hill 8 4) 0 4 1 r r2 E E2).
Defined.

Lemma golden_more_iterations_witness :
  firstn 3 (table_of (golden_section (Build_opt_tech hill 8 4) 0 4)) =
  table_of (golden_section (Build_opt_tech hill 3 4) 0 4).
Proof.
  apply (golden_more_iterations hill 3 8 4 0 4).
  vm_compute. intro D; discriminate D.
Defined.


(** * Golden section on the interpreter's arithmetic: the run *)

Section MachineRun.

Import Machine.

Context {num fval : Type} {rt : Runtime num fval}.
Variables (L E : list num) (prec : nat).

(** What a pass that does not raise has computed. *)
Lemma pass_inv (i : nat) (lo hi : num) (r : row num fval) (b : locals num) :
  pass L E prec i lo hi = inr (r, b) ->
  exists d m p2 p1 v2 v1 len err g,
    py_sub hi lo = inr d /\ py_mul c618 d = inr m /\
    py_sub hi m = inr p2 /\ py_add lo m = inr p1 /\
    sym_subs p2 = inr v2 /\ sym_subs p1 = inr v1 /\
    nth_error L i = Some len /\ nth_error E i = Some err /\
    fmt_row prec r = inr tt /\
    sym_gt v1 v2 = inr g /\
    r = Build_row (S i) lo p2 p1 hi v2 v1 len err /\
    b = eliminate g (Build_locals lo p2 p1 hi).
Proof.
  unfold pass, probe_x2, probe_x1, index, bind, ret. intro P.
  destruct (py_sub hi lo) as [|d] eqn:E1; [discriminate P|].
  destruct (py_mul c618 d) as [|m] eqn:E2; [discriminate P|].
  destruct (py_sub hi m) as [|p2] eqn:E3; [discriminate P|].
  destruct (py_add lo m) as [|p1] eqn:E4; [discriminate P|].
  destruct (sym_subs p2) as [|v2] eqn:E5; [discriminate P|].
  destruct (sym_subs p1) as [|v1] eqn:E6; [discriminate P|].
  destruct (nth_error L i) as [len|] eqn:E7; [|discriminate P].
  destruct (nth_error E i) as [err|] eqn:E8; [|discriminate P].
  destruct (fmt_row prec _) as [|[]] eqn:E9; [discriminate P|].
  destruct (sym_gt v1 v2) as [|g] eqn:E10; [discriminate P|].
  inversion P; subst r b; clear P.
  exists d, m, p2, p1, v2, v1, len, err, g.
  repeat split; assumption || reflexivity.
Qed.


Lemma loop_done (n i : nat) (lo hi : num) (final : num * num) :
  bounds_after L E prec n i lo hi = Some final ->
  exists t, loop L E prec n i lo hi = Done t final /\ length t = n.
Proof.
  revert i lo hi. induction n as [|n IH]; intros i lo hi Hb.
  - cbn in Hb. inversion Hb. exists []. now split.
  - cbn [bounds_after] in Hb. cbn [loop].
    destruct (pass L E prec i lo hi) as [e|[r0 b0]]; [discriminate Hb|].
    destruct (IH _ _ _ Hb) as (t & -> & Hlen).
    exists (r0 :: t). split; [reflexivity | cbn; now rewrite Hlen].
Qed.

Lemma loop_raised (k n i : nat) (lo hi a b : num) (e : exn) :
  (k < n)%nat ->
  bounds_after L E prec k i lo hi = Some (a, b) ->
  pass L E prec (i + k) a b = inl e ->
  exists t, loop L E prec n i lo hi = Raised t (i + k) e /\ length t = k.
Proof.
  revert n i lo hi. induction k as [|k IH]; intros n i lo hi Hk Hb Hp.
  - destruct n as [|n]; [lia|]. cbn in Hb. inversion Hb; subst a b.
    rewrite Nat.add_0_r in Hp |- *. cbn [loop]. rewrite Hp.
    exists []. now split.
  - destruct n as [|n]; [lia|].
    cbn [bounds_after] in Hb. cbn [loop].
    destruct (pass L E prec i lo hi) as [e0|[r0 b0]]; [discriminate Hb|].
    replace (i + S k)%nat with (S i + k)%nat in Hp |- * by lia.
    destruct (IH n (S i) _ _ ltac:(lia) Hb Hp) as (t & -> & Hlen).
    exists (r0 :: t). split; [reflexivity | cbn; now rewrite Hlen].
Qed.

Lemma loop_first_row (n i : nat) (lo hi : num) (r : row num fval) :
  nth_error (table_of (loop L E prec n i lo hi)) 0 = Some r ->
  r_xl r = lo /\ r_xu r = hi /\ no r = S i.
Proof.
  destruct n as [|n]; [discriminate|]. cbn [loop].
  destruct (pass L E prec i lo hi) as [e|[r0 b0]] eqn:P; [discriminate|].
  destruct (pass_inv _ _ _ _ _ P)
    as (d & m & p2 & p1 & v2 & v1 & len & err & g & H).
  destruct H as (_ & _ & _ & _ & _ & _ & _ & _ & _ & _ & -> & _).
  destruct (loop L E prec n (S i) (xl b0) (xu b0)); cbn;
    intro Hr; inversion Hr; now subst r.
Qed.

End MachineRun.

Section MachineClaims.

Import Machine.

Context {num fval : Type} {rt : Runtime num fval} {tb : Tables num}.
Variables (itr_no : Z) (prec : nat) (lo hi : num).
Variables (L E : list num).

Let N := range_len itr_no.


Hypothesis built : tables itr_no prec lo hi = inr (L, E).


Lemma golden_section_loop :
  golden_section itr_no prec lo hi = loop L E prec N 0 lo hi.
Proof.
  unfold golden_section. now rewrite built.
Qed.



(** C7, as the code has it.  With [lower_bound >= upper_bound] nothing is
    checked and the call goes on as for any bounds: when the header and
    the lists are built and no iteration raises, it returns after
    [itr_no] iterations with one row each, the first row showing the
    bounds as given; when an iteration raises (formatting its row,
    evaluating or comparing the objective, or in the arithmetic of the
    bounds), the call ends there with that exception, the rows of the
    earlier iterations printed. *)
Theorem golden_no_bracket_check :
  ~ py_lt lo hi ->
  (forall final,
     bounds_after L E prec N 0 lo hi = Some final ->
     exists table,
       golden_section itr_no prec lo hi = Done table final /\
       length table = N /\
       forall r, nth_error table 0 = Some r -> r_xl r = lo /\ r_xu r = hi) /\
  (forall k a b e,
     (k < N)%nat ->
     bounds_after L E prec k 0 lo hi = Some (a, b) ->
     pass L E prec k a b = inl e ->
     exists table,
       golden_section itr_no prec lo hi = Raised table k e /\
       length table = k).
Proof.
  intros _. rewrite golden_section_loop. split.
  - intros final Hb.
    destruct (loop_done L E prec N 0 lo hi final Hb) as (t & Ht & Hlen).
    exists t. split; [exact Ht|]. split; [exact Hlen|].
    intros r Hr.
    pose proof (loop_first_row L E prec N 0 lo hi r) as Hf.
    rewrite Ht in Hf. destruct (Hf Hr) as (H1 & H2 & _). now split.
  - intros k a b e Hk Hb Hp.
    apply (loop_raised L E prec k N 0 lo hi a b e Hk Hb Hp).
Qed.


End MachineClaims.

(** * Concrete runs on the interpreter's arithmetic *)





Lemma golden_no_bracket_check_witness :
  exists table final,
    Machine.golden_section (rt := Machine.exact hill)
      (tb := Machine.exact_tables) 3 3 4 0 = Machine.Done table final /\
    length table = 3%nat.
Proof.
  destruct (Machine.tables (rt := Machine.exact hill)
              (tb := Machine.exact_tables) 3 3 4 0)
    as [e|[L E]] eqn:T; [vm_compute in T; discriminate T|].
  destruct (Machine.bounds_after (rt := Machine.exact hill) L E 3 3 0 4 0)
    as [final|] eqn:B;
    [|vm_compute in T; inversion T; subst L E; vm_compute in B;
      discriminate B].
  destruct (golden_no_bracket_check (rt := Machine.exact hill)
              (tb := Machine.exact_tables) 3 3 4 0 L E T) as [Hdone _].
  - vm_compute. intro D; discriminate D.
  - destruct (Hdone final B) as (t & Ht & Hlen & _).
    exists t, final. split; [exact Ht | exact Hlen].
Defined.


(** In binary64, at the bounds [(1, 1)] with one iteration, no check stops
    the call: the row of the first iteration is printed, showing the
    bounds as given, and the call returns. *)
Lemma golden_no_bracket_check_counterexample :
  PrimFloat.ltb 1%float 1%float = false /\
  exists r final,
    Machine.loop (rt := Machine.binary64_hill)
      [0%float] [0%float] 3 1 0 1%float 1%float
    = Machine.Done [r] final /\
    Machine.no r = 1%nat /\
    Machine.r_xl r = 1%float /\ Machine.r_xu r = 1%float.
Proof.
  split; [reflexivity|].
  eexists _, _. split; [vm_compute; reflexivity|].
  repeat split.
Qed.
